(** * ngx-agora: the [NgxAgoraService] wrapper around the Agora Web SDK

    A shallow embedding of [ngx-agora.service.ts] (the injectable service),
    of the [StreamSpec] and [AgoraClient] interface declarations it uses, and
    of the boundary to the wrapped SDK object [AgoraRTC].

    The service is stateful JavaScript: it assigns its own fields, writes
    into the specification object the caller passes by reference, and calls
    into the SDK, whose enumeration callback runs later.  The embedding keeps
    all of that explicit: a [World] holds the service instance, the heap of
    caller-owned specification objects, the log of SDK calls, and the
    callbacks the SDK still holds; methods are computations in a
    state-and-exception monad over [World]. *)

From stdpp Require Import base option list strings gmap.

(** * JavaScript values and truthiness *)

(** [!s] for a string: only the empty string is falsy. *)
Definition truthy_string (s : string) : bool :=
  match s with
  | EmptyString => false
  | String _ _ => true
  end.

(** An optional property of type [string]: [undefined] ([None]) is falsy,
    and so is the empty string. *)
Definition truthy (o : option string) : bool :=
  match o with
  | None => false
  | Some s => truthy_string s
  end.

(** [a || b] on optional strings, where [b] is a string. *)
Definition js_or (a : option string) (b : string) : option string :=
  if truthy a then a else Some b.

(** [n] used as a condition, for an array length. *)
Definition truthy_length (n : nat) : bool :=
  match n with
  | O => false
  | S _ => true
  end.

(** * Data model *)

(** Modelled from the spec: the [MediaDeviceInfo] declaration is imported by
    the service from [./data/models/exports], which is not among the sources;
    the spec gives the device descriptor as deviceId, kind and label.  The
    service compares [kind] and [deviceId] with string literals. *)
Record MediaDeviceInfo := {
  deviceId : string;
  kind : string;
  label : string
}.

(** [AgoraConfig]: the service reads [this.config.AppID]. *)
Record AgoraConfig := {
  AppID : string
}.

Record AudioProcessing := {
  AEC : option bool;
  AGC : option bool;
  ANS : option bool
}.

Inductive FacingMode := facing_user | facing_environment.

Inductive MediaSource := source_screen | source_application | source_window.

(** [streamID?: number | string]. *)
Inductive StreamID :=
| StreamID_number (n : Z)
| StreamID_string (s : string).

(** [MediaStreamTrack] objects belong to the browser; the wrapper only
    carries references to them. *)
Definition MediaStreamTrack := positive.

(** The [StreamSpec] interface, field by field; a property declared with
    [?] is an [option]. *)
Record StreamSpec := {
  audio : bool;
  audioProcessing : option AudioProcessing;
  audioSource : option MediaStreamTrack;
  cameraId : option string;
  extensionId : option string;
  facingMode : option FacingMode;
  mediaSource : option MediaSource;
  microphoneId : option string;
  mirror : option bool;
  screen : option bool;
  screenAudio : option bool;
  streamID : option StreamID;
  video : bool;
  videoSource : option MediaStreamTrack
}.

(** [spec.microphoneId = v] *)
Definition set_microphoneId (v : option string) (s : StreamSpec) : StreamSpec :=
  {| audio := audio s; audioProcessing := audioProcessing s;
     audioSource := audioSource s; cameraId := cameraId s;
     extensionId := extensionId s; facingMode := facingMode s;
     mediaSource := mediaSource s; microphoneId := v;
     mirror := mirror s; screen := screen s; screenAudio := screenAudio s;
     streamID := streamID s; video := video s; videoSource := videoSource s |}.

(** [spec.cameraId = v] *)
Definition set_cameraId (v : option string) (s : StreamSpec) : StreamSpec :=
  {| audio := audio s; audioProcessing := audioProcessing s;
     audioSource := audioSource s; cameraId := v;
     extensionId := extensionId s; facingMode := facingMode s;
     mediaSource := mediaSource s; microphoneId := microphoneId s;
     mirror := mirror s; screen := screen s; screenAudio := screenAudio s;
     streamID := streamID s; video := video s; videoSource := videoSource s |}.

(** The operations of the [AgoraClient] interface, in declaration order. *)
Module Client.
Inductive method :=
| addInjectStreamUrl | configPublisher | disableDualStream
| enableAudioVolumeIndicator | enableDualStream | getCameras
| getConnectionState | getLocalAudioStats | getLocalVideoStats
| getNetworkStats | getPlayoutDevices | getRecordingDevices
| getRemoteAudioStats | getRemoteVideoStats | getSessionStats
| getSystemStats | getTransportStats | init | join | leave | off | on
| publish | removeInjectStreamUrl | renewChannelKey | renewToken
| setClientRole | setEncryptionMode | setEncryptionSecret
| setLiveTranscoding | setLowStreamParameter | setProxyServer
| setRemoteVideoStreamType | setStreamFallbackOption | setTurnServer
| startChannelMediaRelay | startLiveStreaming | startProxyServer
| stopChannelMediaRelay | stopLiveStreaming | stopProxyServer
| subscribe | unpublish | unsubscribe | updateChannelMediaRelay.
End Client.

(** The types the SDK owns.  The wrapper never looks inside them. *)
Class SdkTypes := {
  ClientConfig : Type;   (* argument of [AgoraRTC.createClient] *)
  Stream : Type;         (* object returned by [AgoraRTC.createStream] *)
  AgoraClient : Type;    (* object returned by [AgoraRTC.createClient] *)
  Foreign : Type;        (* any other object or function: callbacks, configurations *)
  SdkError : Type        (* values the SDK throws *)
}.

(** References to caller-owned [StreamSpec] objects. *)
Definition loc := positive.

Section Wrapper.
Context `{SdkTypes}.

(** Arguments and results of client operations. *)
Inductive JSValue :=
| JUndefined
| JBoolean (b : bool)
| JNumber (n : Z)
| JString (s : string)
| JObject (o : Foreign).

Inductive Thrown :=
| TypeError (msg : string)     (* raised by the wrapper's own property reads *)
| SdkThrow (e : SdkError).     (* raised inside the SDK *)

Inductive completion (A : Type) :=
| Normal (a : A)
| Throw (e : Thrown).
Global Arguments Normal {A} a.
Global Arguments Throw {A} e.

(** What an SDK entry point gives back. *)
Definition of_sdk {A} (r : A + SdkError) : completion A :=
  match r with
  | inl a => Normal a
  | inr e => Throw (SdkThrow e)
  end.

(** The closure [collectDevices] hands to [getDevices]; it captures
    [this]. *)
Inductive DevicesCallback := collectDevices_callback.

(** One entry per call that crosses into the SDK, with what the call
    received and what it gave back.  [Call_createStream] records the
    reference it was given and the contents of that object at the call. *)
Inductive SdkCall :=
| Call_checkSystemRequirements (r : bool)
| Call_Logger_error (msg : string)
| Call_getDevices (cb : DevicesCallback)
| Call_createClient (config : ClientConfig) (r : AgoraClient + SdkError)
| Call_createStream (spec : loc) (contents : StreamSpec) (r : Stream + SdkError)
| Call_client (c : AgoraClient) (m : Client.method) (args : list JSValue)
    (r : JSValue + SdkError).

(** The SDK object [AgoraRTC]: opaque, so its answers are arbitrary
    functions of everything it has been asked so far. *)
Record AgoraRTC := {
  sdk_checkSystemRequirements : list SdkCall → bool;
  sdk_createClient : list SdkCall → ClientConfig → AgoraClient + SdkError;
  sdk_createStream : list SdkCall → StreamSpec → Stream + SdkError;
  sdk_client :
    list SdkCall → AgoraClient → Client.method → list JSValue → JSValue + SdkError
}.

(** The fields of an [NgxAgoraService] instance.  [client],
    [audioDevices] and [videoDevices] are declared without initialiser:
    they are [undefined] until assigned. *)
Record NgxAgoraService := {
  config : AgoraConfig;
  client : option AgoraClient;
  audioDevices : option (list MediaDeviceInfo);
  videoDevices : option (list MediaDeviceInfo)
}.

Record World := {
  this : NgxAgoraService;
  heap : gmap loc StreamSpec;         (* caller-owned specification objects *)
  calls : list SdkCall;               (* SDK calls so far, oldest first *)
  pending : list DevicesCallback      (* callbacks [getDevices] has not answered *)
}.

Definition with_this (f : NgxAgoraService → NgxAgoraService) (w : World) : World :=
  {| this := f (this w); heap := heap w; calls := calls w; pending := pending w |}.

Definition with_heap (f : gmap loc StreamSpec → gmap loc StreamSpec) (w : World) : World :=
  {| this := this w; heap := f (heap w); calls := calls w; pending := pending w |}.

Definition log (c : SdkCall) (w : World) : World :=
  {| this := this w; heap := heap w; calls := calls w ++ [c]; pending := pending w |}.

Definition with_pending (f : list DevicesCallback → list DevicesCallback) (w : World) : World :=
  {| this := this w; heap := heap w; calls := calls w; pending := f (pending w) |}.

Definition set_client (c : AgoraClient) (s : NgxAgoraService) : NgxAgoraService :=
  {| config := config s; client := Some c;
     audioDevices := audioDevices s; videoDevices := videoDevices s |}.

Definition set_audioDevices (l : list MediaDeviceInfo) (s : NgxAgoraService) :=
  {| config := config s; client := client s;
     audioDevices := Some l; videoDevices := videoDevices s |}.

Definition set_videoDevices (l : list MediaDeviceInfo) (s : NgxAgoraService) :=
  {| config := config s; client := client s;
     audioDevices := audioDevices s; videoDevices := Some l |}.

(** ** The monad of wrapper code *)

(** A statement runs in a world and completes normally or throws; what
    it wrote before throwing stays written. *)
Definition M (A : Type) : Type := World → completion A * World.

Definition ret {A} (a : A) : M A := λ w, (Normal a, w).

Definition bind {A B} (m : M A) (k : A → M B) : M B :=
  λ w, match m w with
       | (Normal a, w') => k a w'
       | (Throw e, w') => (Throw e, w')
       end.

Definition throw {A} (e : Thrown) : M A := λ w, (Throw e, w).

Definition gets {A} (f : World → A) : M A := λ w, (Normal (f w), w).

Definition modify (f : World → World) : M unit := λ w, (Normal tt, f w).

Global Instance M_ret : MRet M := @ret.
Global Instance M_bind : MBind M := λ A B k m, bind m k.

Variable rtc : AgoraRTC.

(** ** Calls into the SDK *)

Definition AgoraRTC_checkSystemRequirements : M bool :=
  λ w, let r := sdk_checkSystemRequirements rtc (calls w) in
       (Normal r, log (Call_checkSystemRequirements r) w).

Definition AgoraRTC_Logger_error (msg : string) : M unit :=
  modify (log (Call_Logger_error msg)).

(** [getDevices] returns at once and keeps the callback. *)
Definition AgoraRTC_getDevices (cb : DevicesCallback) : M unit :=
  modify (λ w, with_pending (λ p, p ++ [cb]) (log (Call_getDevices cb) w)).

Definition AgoraRTC_createClient (cfg : ClientConfig) : M AgoraClient :=
  λ w, let r := sdk_createClient rtc (calls w) cfg in
       (of_sdk r, log (Call_createClient cfg r) w).

(** The SDK receives the reference; it sees the object as it is now. *)
Definition AgoraRTC_createStream (spec : loc) : M Stream :=
  λ w, match heap w !! spec with
       | None => (Throw (TypeError "spec is undefined"), w)
       | Some s =>
           let r := sdk_createStream rtc (calls w) s in
           (of_sdk r, log (Call_createStream spec s r) w)
       end.

Definition client_invoke (c : AgoraClient) (m : Client.method) (args : list JSValue)
  : M JSValue :=
  λ w, let r := sdk_client rtc (calls w) c m args in
       (of_sdk r, log (Call_client c m args r) w).

(** ** Property reads and writes *)

(** [spec.f]: reading a property of an object that is not there throws. *)
Definition read {A} (spec : loc) (f : StreamSpec → A) : M A :=
  λ w, match heap w !! spec with
       | None => (Throw (TypeError "Cannot read property of undefined"), w)
       | Some s => (Normal (f s), w)
       end.

(** [spec.f = v], through the setter [upd]. *)
Definition write (spec : loc) (upd : StreamSpec → StreamSpec) : M unit :=
  λ w, match heap w !! spec with
       | None => (Throw (TypeError "Cannot set property of undefined"), w)
       | Some s => (Normal tt, with_heap (insert spec (upd s)) w)
       end.

(** [arr && arr.length]: an array is truthy, its length is when positive. *)
Definition truthy_and_length (arr : option (list MediaDeviceInfo)) : bool :=
  match arr with
  | None => false
  | Some l => truthy_length (length l)
  end.

(** [arr[0].deviceId] *)
Definition first_deviceId (arr : option (list MediaDeviceInfo)) : M string :=
  match arr with
  | None => throw (TypeError "Cannot read property '0' of undefined")
  | Some l =>
      match l !! 0%nat with
      | None => throw (TypeError "Cannot read property 'deviceId' of undefined")
      | Some d => ret (deviceId d)
      end
  end.

(** [this.client.m(args)], for the service's own code and for a consumer
    holding the service. *)
Definition this_client (m : Client.method) (args : list JSValue) : M JSValue :=
  c ← gets (λ w, client (this w));
  match c with
  | None => throw (TypeError "Cannot read property of undefined")
  | Some c => client_invoke c m args
  end.

(** ** The service *)

Definition checkSystemRequirements : M bool :=
  AgoraRTC_checkSystemRequirements.

(** The two [devices.filter] callbacks. *)
Definition is_audio_input (device : MediaDeviceInfo) : bool :=
  String.eqb (kind device) "audioinput" && negb (String.eqb (deviceId device) "default").

Definition is_video_input (device : MediaDeviceInfo) : bool :=
  String.eqb (kind device) "videoinput" && negb (String.eqb (deviceId device) "default").

(** The body of the arrow function passed to [getDevices]. *)
Definition run_callback (cb : DevicesCallback) (devices : list MediaDeviceInfo) : M unit :=
  match cb with
  | collectDevices_callback =>
      let audioDevices := List.filter is_audio_input devices in
      let videoDevices := List.filter is_video_input devices in
      modify (with_this (set_audioDevices audioDevices));;
      modify (with_this (set_videoDevices videoDevices))
  end.

Definition collectDevices : M unit :=
  AgoraRTC_getDevices collectDevices_callback.

(** The instance before the constructor body runs. *)
Definition fresh (cfg : AgoraConfig) : World :=
  {| this := {| config := cfg; client := None;
                audioDevices := None; videoDevices := None |};
     heap := ∅; calls := []; pending := [] |}.

Definition constructor : M unit :=
  ok ← checkSystemRequirements;
  if negb ok then
    AgoraRTC_Logger_error "Web RTC is not supported in this browser"
  else
    collectDevices.

Definition createClient (cfg : ClientConfig) : M unit :=
  c ← AgoraRTC_createClient cfg;
  modify (with_this (set_client c));;
  appId ← gets (λ w, AppID (config (this w)));
  this_client Client.init [JString appId];;
  ret tt.

Definition createStream (spec : loc) : M Stream :=
  mic ← read spec microphoneId;
  audioDevs ← gets (λ w, audioDevices (this w));
  (if negb (truthy mic) && truthy_and_length audioDevs then
     defaultMic ← first_deviceId audioDevs;
     write spec (set_microphoneId (Some defaultMic))
   else ret tt);;
  cam ← read spec cameraId;
  videoDevs ← gets (λ w, videoDevices (this w));
  (if negb (truthy cam) && truthy_and_length videoDevs then
     defaultCamera ← first_deviceId videoDevs;
     cam' ← read spec cameraId;
     write spec (set_cameraId (js_or cam' defaultCamera))
   else ret tt);;
  AgoraRTC_createStream spec.

(** ** What happens to a service after construction *)

(** The SDK answers the oldest outstanding [getDevices] call by running
    its callback on the enumerated devices. *)
Definition deliver_devices (devices : list MediaDeviceInfo) : M unit :=
  λ w, match pending w with
       | [] => (Normal tt, w)
       | cb :: rest => run_callback cb devices (with_pending (λ _, rest) w)
       end.

(** Enumeration fails: [collectDevices] passed no failure callback, so
    the outstanding call is dropped and nothing runs. *)
Definition fail_devices : M unit :=
  modify (with_pending (drop 1)).

(** The consumer writes the object literal [s] at reference [spec]. *)
Definition new_spec (spec : loc) (s : StreamSpec) : M unit :=
  modify (with_heap (insert spec s)).

Inductive action :=
| Do_createClient (cfg : ClientConfig)
| Do_createStream (spec : loc)
| Do_client (m : Client.method) (args : list JSValue)
| Do_new_spec (spec : loc) (s : StreamSpec)
| Sdk_devices (devices : list MediaDeviceInfo)
| Sdk_devices_failed.

(** The world after an action; an exception is the consumer's to catch
    and leaves the world as the throwing statement left it. *)
Definition exec (a : action) (w : World) : World :=
  match a with
  | Do_createClient cfg => (createClient cfg w).2
  | Do_createStream spec => (createStream spec w).2
  | Do_client m args => (this_client m args w).2
  | Do_new_spec spec s => (new_spec spec s w).2
  | Sdk_devices devices => (deliver_devices devices w).2
  | Sdk_devices_failed => (fail_devices w).2
  end.

Definition run (acts : list action) (w : World) : World :=
  foldl (λ w a, exec a w) w acts.

(** [new NgxAgoraService(cfg)] *)
Definition new_service (cfg : AgoraConfig) : World :=
  (constructor (fresh cfg)).2.

(** ** Reading the stream factory *)

(** The value a device field ends up with, given the cache it defaults
    from. *)
Definition default_for (field : option string) (cache : option (list MediaDeviceInfo))
  : option string :=
  match cache with
  | Some (d :: _) => if truthy field then field else Some (deviceId d)
  | _ => field
  end.

Definition effective_spec (svc : NgxAgoraService) (s : StreamSpec) : StreamSpec :=
  set_cameraId (default_for (cameraId s) (videoDevices svc))
    (set_microphoneId (default_for (microphoneId s) (audioDevices svc)) s).

(** A cache that offers no default: never assigned, or assigned empty. *)
Definition no_devices (cache : option (list MediaDeviceInfo)) : Prop :=
  cache = None ∨ cache = Some [].

End Wrapper.

(** ** Reading the call log *)

Section Log.
Context `{SdkTypes}.

(** The client object a log entry created, if it is a [createClient] call
    that returned one. *)
Definition created (c : SdkCall) : option AgoraClient :=
  match c with
  | Call_createClient _ (inl client) => Some client
  | _ => None
  end.

(** The client object the SDK created last. *)
Definition last_created (log : list SdkCall) : option AgoraClient :=
  last (omap created log).

Definition is_getDevices (c : SdkCall) : bool :=
  match c with
  | Call_getDevices _ => true
  | _ => false
  end.

(** The cached lists, read as arrays (an unset cache has no entries). *)
Definition audio_cache (w : World) : list MediaDeviceInfo :=
  default [] (audioDevices (this w)).

Definition video_cache (w : World) : list MediaDeviceInfo :=
  default [] (videoDevices (this w)).

End Log.

(** ** The partition, as the specification words it *)

(** [Selected P l k]: [k] consists of exactly the entries of [l] that
    satisfy [P], in the order of [l]. *)
Inductive Selected {A : Type} (P : A → Prop) : list A → list A → Prop :=
| Selected_nil : Selected P [] []
| Selected_keep x xs ys : P x → Selected P xs ys → Selected P (x :: xs) (x :: ys)
| Selected_skip x xs ys : ¬ P x → Selected P xs ys → Selected P (x :: xs) ys.

Definition audio_input_not_default (d : MediaDeviceInfo) : Prop :=
  kind d = "audioinput" ∧ deviceId d ≠ "default".

Definition video_input_not_default (d : MediaDeviceInfo) : Prop :=
  kind d = "videoinput" ∧ deviceId d ≠ "default".

(** ** A concrete SDK, for running the service *)

Module Sample.

#[export] Instance types : SdkTypes :=
  {| ClientConfig := string; Stream := nat; AgoraClient := nat;
     Foreign := nat; SdkError := string |}.

(** An SDK that passes the compatibility check and numbers the objects it
    creates by the length of the call log. *)
Definition rtc : AgoraRTC :=
  {| sdk_checkSystemRequirements := λ _, true;
     sdk_createClient := λ h _, inl (length h);
     sdk_createStream := λ h _, inl (length h);
     sdk_client := λ _ _ _ _, inl JUndefined |}.

(** An SDK on a browser without WebRTC; its stream constructor throws. *)
Definition rtc_unsupported : AgoraRTC :=
  {| sdk_checkSystemRequirements := λ _, false;
     sdk_createClient := λ h _, inl (length h);
     sdk_createStream := λ _ _, inr "NOT_SUPPORTED";
     sdk_client := λ _ _ _ _, inl JUndefined |}.

Definition cfg : AgoraConfig := {| AppID := "app-id" |}.

Definition device (id k : string) : MediaDeviceInfo :=
  {| deviceId := id; kind := k; label := "" |}.

Definition enumerated : list MediaDeviceInfo :=
  [device "a" "audioinput"; device "default" "audioinput"; device "b" "videoinput"].

(** The object literal [{audio: true, video: true}]. *)
Definition spec_av : StreamSpec :=
  {| audio := true; audioProcessing := None; audioSource := None;
     cameraId := None; extensionId := None; facingMode := None;
     mediaSource := None; microphoneId := None; mirror := None;
     screen := None; screenAudio := None; streamID := None;
     video := true; videoSource := None |}.

(** The reference at which the consumer holds its specification object. *)
Definition one : loc := 1%positive.

(** A service whose enumeration has answered with [enumerated], and a
    consumer holding [spec] at reference [one]. *)
Definition ready (spec : StreamSpec) : World :=
  run rtc [Sdk_devices enumerated; Do_new_spec one spec] (new_service rtc cfg).

(** A service whose enumeration never answered. *)
Definition unanswered (spec : StreamSpec) : World :=
  run rtc [Sdk_devices_failed; Do_new_spec one spec] (new_service rtc cfg).

End Sample.

(** ** The life of a service, seen from outside *)

Section Lifecycle.
Context `{SdkTypes}.

(** An action the consumer takes, as opposed to an answer of the SDK to
    the enumeration. *)
Definition is_consumer (a : action) : bool :=
  match a with
  | Sdk_devices _ | Sdk_devices_failed => false
  | _ => true
  end.

(** How many times the log shows [getDevices] being called. *)
Definition count_getDevices (log : list SdkCall) : nat :=
  length (List.filter is_getDevices log).

(** The identifier [createStream] ends up with for a device field, when the
    cache it defaults from was filled from [devices] through the filter
    callback [f]: the caller's non-empty identifier, or else that of the
    first enumerated device the callback accepts, or else the field as it
    was. *)
Definition selected_id (f : MediaDeviceInfo → bool) (devices : list MediaDeviceInfo)
    (field : option string) : option string :=
  if truthy field then field
  else match List.find f devices with
       | Some d => Some (deviceId d)
       | None => field
       end.

End Lifecycle.

(** ** SDKs that fail *)

Module Failing.
Import Sample.

(** An SDK that cannot create a client. *)
Definition rtc_no_client : AgoraRTC :=
  {| sdk_checkSystemRequirements := λ _, true;
     sdk_createClient := λ _ _, inr "CLIENT_FAILED";
     sdk_createStream := λ h _, inl (length h);
     sdk_client := λ _ _ _ _, inl JUndefined |}.

(** An SDK whose clients throw from every operation, [init] included. *)
Definition rtc_init_throws : AgoraRTC :=
  {| sdk_checkSystemRequirements := λ _, true;
     sdk_createClient := λ h _, inl (length h);
     sdk_createStream := λ h _, inl (length h);
     sdk_client := λ _ _ _ _, inr "INVALID_OPERATION" |}.

(** An enumeration in which the only audio input is the 'default' alias
    and the camera comes after a speaker. *)
Definition aliases_only : list MediaDeviceInfo :=
  [device "default" "audioinput"; device "s" "audiooutput";
   device "c1" "videoinput"; device "c2" "videoinput"].

End Failing.

(** * Properties *)

Section Properties.
Context `{SdkTypes}.
Variable rtc : AgoraRTC.

(** ** Setters and truthiness *)

Lemma set_microphoneId_same s : set_microphoneId (microphoneId s) s = s.
Proof. by destruct s. Qed.

Lemma set_cameraId_same s : set_cameraId (cameraId s) s = s.
Proof. by destruct s. Qed.

Lemma truthy_Some_nonempty m : m ≠ "" → truthy (Some m) = true.
Proof. by destruct m. Qed.

Lemma default_for_truthy field cache :
  truthy field = true → default_for field cache = field.
Proof. intros Ht. destruct cache as [[|d ds]|]; simpl; by rewrite ?Ht. Qed.

Lemma default_for_no_devices field cache :
  no_devices cache → default_for field cache = field.
Proof. by intros [-> | ->]. Qed.

Lemma default_for_first field d ds :
  truthy field = false → default_for field (Some (d :: ds)) = Some (deviceId d).
Proof. intros Hf. simpl. by rewrite Hf. Qed.

Lemma default_for_idem field cache :
  default_for (default_for field cache) cache = default_for field cache.
Proof.
  destruct cache as [[|d ds]|]; simpl; try done.
  destruct (truthy field) eqn:Hf; [by rewrite Hf|].
  by destruct (truthy (Some (deviceId d))).
Qed.

Lemma effective_spec_idem svc s :
  effective_spec svc (effective_spec svc s) = effective_spec svc s.
Proof.
  unfold effective_spec. destruct s; simpl.
  unfold set_cameraId, set_microphoneId; simpl.
  by rewrite !default_for_idem.
Qed.

Lemma effective_spec_microphoneId svc s :
  microphoneId (effective_spec svc s) = default_for (microphoneId s) (audioDevices svc).
Proof. done. Qed.

Lemma effective_spec_cameraId svc s :
  cameraId (effective_spec svc s) = default_for (cameraId s) (videoDevices svc).
Proof. done. Qed.

Lemma effective_spec_unchanged svc s :
  default_for (microphoneId s) (audioDevices svc) = microphoneId s →
  default_for (cameraId s) (videoDevices svc) = cameraId s →
  effective_spec svc s = s.
Proof.
  intros Hm Hc. unfold effective_spec. rewrite Hm, Hc.
  by destruct s.
Qed.

Lemma effective_microphoneId_default svc s d ds :
  truthy (microphoneId s) = false → audioDevices svc = Some (d :: ds) →
  microphoneId (effective_spec svc s) = Some (deviceId d).
Proof.
  intros Hf Ha. rewrite effective_spec_microphoneId, Ha. by apply default_for_first.
Qed.

Lemma effective_cameraId_default svc s d ds :
  truthy (cameraId s) = false → videoDevices svc = Some (d :: ds) →
  cameraId (effective_spec svc s) = Some (deviceId d).
Proof.
  intros Hf Hv. rewrite effective_spec_cameraId, Hv. by apply default_for_first.
Qed.

Lemma effective_microphoneId_kept svc s m :
  microphoneId s = Some m → m ≠ "" → microphoneId (effective_spec svc s) = Some m.
Proof.
  intros Hm Hne. rewrite effective_spec_microphoneId, Hm.
  by apply default_for_truthy, truthy_Some_nonempty.
Qed.

Lemma effective_cameraId_kept svc s c :
  cameraId s = Some c → c ≠ "" → cameraId (effective_spec svc s) = Some c.
Proof.
  intros Hc Hne. rewrite effective_spec_cameraId, Hc.
  by apply default_for_truthy, truthy_Some_nonempty.
Qed.

(** ** One run of [createStream] *)

(** The microphone block of [createStream], on its own. *)
Lemma microphone_block w l s :
  heap w !! l = Some s →
  (if negb (truthy (microphoneId s)) && truthy_and_length (audioDevices (this w))
   then defaultMic ← first_deviceId (audioDevices (this w));
        write l (set_microphoneId (Some defaultMic))
   else ret tt) w
  = (Normal tt,
     with_heap (insert l (set_microphoneId
                            (default_for (microphoneId s) (audioDevices (this w))) s)) w).
Proof.
  intros Hs.
  assert (Hid : ∀ v, v = microphoneId s →
    (Normal tt, w) = (Normal tt, with_heap (insert l (set_microphoneId v s)) w)
      :> completion unit * World).
  { intros v ->. rewrite set_microphoneId_same. destruct w as [t h c p]; simpl in *.
    unfold with_heap; simpl. by rewrite insert_id. }
  destruct (audioDevices (this w)) as [[|d ds]|] eqn:Ha; simpl.
  - rewrite andb_false_r. by apply Hid.
  - destruct (truthy (microphoneId s)) eqn:Ht; simpl.
    + by apply Hid.
    + unfold mbind, M_bind, bind, ret, write; simpl. by rewrite Hs.
  - rewrite andb_false_r. by apply Hid.
Qed.

(** The camera block of [createStream], on its own. *)
Lemma camera_block w l s :
  heap w !! l = Some s →
  (if negb (truthy (cameraId s)) && truthy_and_length (videoDevices (this w))
   then defaultCamera ← first_deviceId (videoDevices (this w));
        cam' ← read l cameraId;
        write l (set_cameraId (js_or cam' defaultCamera))
   else ret tt) w
  = (Normal tt,
     with_heap (insert l (set_cameraId
                            (default_for (cameraId s) (videoDevices (this w))) s)) w).
Proof.
  intros Hs.
  assert (Hid : ∀ v, v = cameraId s →
    (Normal tt, w) = (Normal tt, with_heap (insert l (set_cameraId v s)) w)
      :> completion unit * World).
  { intros v ->. rewrite set_cameraId_same. destruct w as [t h c p]; simpl in *.
    unfold with_heap; simpl. by rewrite insert_id. }
  destruct (videoDevices (this w)) as [[|d ds]|] eqn:Hv; simpl.
  - rewrite andb_false_r. by apply Hid.
  - destruct (truthy (cameraId s)) eqn:Ht; simpl.
    + by apply Hid.
    + unfold mbind, M_bind, bind, ret, write, read, js_or; simpl.
      rewrite Hs; simpl. by rewrite Hs, Ht.
  - rewrite andb_false_r. by apply Hid.
Qed.

(** [createStream] on a specification object that exists: it overwrites
    the object with its default-filled version, makes exactly one SDK call,
    on that same object, and completes as the SDK does. *)
Lemma createStream_run w l s :
  heap w !! l = Some s →
  let s' := effective_spec (this w) s in
  let r := sdk_createStream rtc (calls w) s' in
  createStream rtc l w
  = (of_sdk r, log (Call_createStream l s' r) (with_heap (insert l s') w)).
Proof.
  intros Hs s' r. unfold createStream.
  unfold mbind at 1, M_bind at 1, bind at 1. unfold read at 1. rewrite Hs.
  unfold mbind at 1, M_bind at 1, bind at 1. unfold gets at 1.
  unfold mbind at 1, M_bind at 1, bind at 1.
  rewrite (microphone_block w l s Hs).
  set (s1 := set_microphoneId _ s).
  set (w1 := with_heap (insert l s1) w).
  assert (Hs1 : heap w1 !! l = Some s1) by (subst w1; simpl; apply lookup_insert_eq).
  unfold mbind at 1, M_bind at 1, bind at 1. unfold read at 1. rewrite Hs1.
  unfold mbind at 1, M_bind at 1, bind at 1. unfold gets at 1.
  unfold mbind at 1, M_bind at 1, bind at 1.
  rewrite (camera_block w1 l s1 Hs1).
  unfold AgoraRTC_createStream; simpl.
  rewrite lookup_insert_eq.
  subst w1 s' r; unfold with_heap, log, effective_spec; simpl.
  by rewrite insert_insert_eq.
Qed.

Lemma with_heap_insert_id (w : World) l s :
  heap w !! l = Some s → with_heap (insert l s) w = w.
Proof.
  intros Hs. destruct w as [t h c p]; unfold with_heap; simpl in *.
  by rewrite insert_id.
Qed.

Lemma of_sdk_not_TypeError {A} (r : A + SdkError) msg :
  of_sdk r ≠ Throw (TypeError msg).
Proof. by destruct r. Qed.

(** A specification whose device fields are both non-empty strings goes to
    the SDK as it is, whatever the caches hold. *)
Lemma createStream_explicit_spec w l s :
  heap w !! l = Some s →
  truthy (microphoneId s) = true → truthy (cameraId s) = true →
  let r := sdk_createStream rtc (calls w) s in
  createStream rtc l w = (of_sdk r, log (Call_createStream l s r) w).
Proof.
  intros Hs Hm Hc. simpl. rewrite (createStream_run w l s Hs); simpl.
  rewrite effective_spec_unchanged by by apply default_for_truthy.
  by rewrite with_heap_insert_id.
Qed.

(** ** The stream factory *)

(** C1 (amended): the specification handed to the SDK's stream constructor
    has its microphoneId equal to the deviceId of the first cached audio
    input whenever the caller's microphoneId is unset or the empty string
    and that cache is non-empty, and symmetrically for cameraId and the
    cached video inputs; a microphoneId or cameraId the caller set to a
    non-empty string is never replaced. *)
Theorem createStream_applies_defaults w l s :
  heap w !! l = Some s →
  ∃ s' r,
    calls (createStream rtc l w).2 = calls w ++ [Call_createStream l s' r] ∧
    (∀ d ds, truthy (microphoneId s) = false →
             audioDevices (this w) = Some (d :: ds) →
             microphoneId s' = Some (deviceId d)) ∧
    (∀ d ds, truthy (cameraId s) = false →
             videoDevices (this w) = Some (d :: ds) →
             cameraId s' = Some (deviceId d)) ∧
    (∀ m, microphoneId s = Some m → m ≠ "" → microphoneId s' = Some m) ∧
    (∀ c, cameraId s = Some c → c ≠ "" → cameraId s' = Some c).
Proof.
  intros Hs. exists (effective_spec (this w) s). eexists.
  rewrite (createStream_run w l s Hs).
  split; [reflexivity|].
  repeat split;
    eauto using effective_microphoneId_default, effective_cameraId_default,
      effective_microphoneId_kept, effective_cameraId_kept.
Qed.

(** C3: when both device caches are empty or unset, [createStream] passes
    the specification to the SDK with every field unchanged, leaves the
    caller's object and the rest of the world as they were, and raises no
    error of its own. *)
Theorem createStream_without_devices w l s :
  heap w !! l = Some s →
  no_devices (audioDevices (this w)) →
  no_devices (videoDevices (this w)) →
  let r := sdk_createStream rtc (calls w) s in
  createStream rtc l w = (of_sdk r, log (Call_createStream l s r) w) ∧
  ∀ msg, (createStream rtc l w).1 ≠ Throw (TypeError msg).
Proof.
  intros Hs Ha Hv r.
  assert (Hrun : createStream rtc l w = (of_sdk r, log (Call_createStream l s r) w)).
  { rewrite (createStream_run w l s Hs); simpl.
    rewrite effective_spec_unchanged by by apply default_for_no_devices.
    by rewrite with_heap_insert_id. }
  split; [done|]. intros msg. rewrite Hrun. apply of_sdk_not_TypeError.
Qed.

(** C6: [createStream] returns exactly what the SDK's stream constructor
    returns for the default-filled specification; if the constructor throws,
    the same value is thrown to the caller. *)
Theorem createStream_returns_sdk_result w l s :
  heap w !! l = Some s →
  let s' := effective_spec (this w) s in
  let r := sdk_createStream rtc (calls w) s' in
  calls (createStream rtc l w).2 = calls w ++ [Call_createStream l s' r] ∧
  (∀ stream, r = inl stream → (createStream rtc l w).1 = Normal stream) ∧
  (∀ e, r = inr e → (createStream rtc l w).1 = Throw (SdkThrow e)).
Proof.
  intros Hs s' r. rewrite (createStream_run w l s Hs); simpl.
  fold s'. fold r. split; [done|].
  split; intros x Hr; by rewrite Hr.
Qed.

(** A device field the caller set keeps its value across a change of the
    cache when it is non-empty, and is defaulted the same way when the cache
    is the same. *)
Lemma default_for_stable field m cache cache' :
  field = Some m →
  m ≠ "" ∨ cache' = cache →
  default_for field cache' = default_for field cache ∧
  default_for (default_for field cache) cache' = default_for field cache.
Proof.
  intros -> [Hne | ->].
  - rewrite !(default_for_truthy (Some m)) by by apply truthy_Some_nonempty. done.
  - by rewrite default_for_idem.
Qed.

Lemma effective_spec_ext svc svc' s :
  default_for (microphoneId s) (audioDevices svc')
  = default_for (microphoneId s) (audioDevices svc) →
  default_for (cameraId s) (videoDevices svc')
  = default_for (cameraId s) (videoDevices svc) →
  effective_spec svc' s = effective_spec svc s.
Proof. intros Hm Hc. unfold effective_spec. by rewrite Hm, Hc. Qed.

Lemma effective_spec_again svc svc' s :
  default_for (default_for (microphoneId s) (audioDevices svc)) (audioDevices svc')
  = default_for (microphoneId s) (audioDevices svc) →
  default_for (default_for (cameraId s) (videoDevices svc)) (videoDevices svc')
  = default_for (cameraId s) (videoDevices svc) →
  effective_spec svc' (effective_spec svc s) = effective_spec svc s.
Proof.
  intros Hm Hc. unfold effective_spec. destruct s; simpl in *.
  unfold set_cameraId, set_microphoneId; simpl. by rewrite Hm, Hc.
Qed.

(** C7 (amended): for a specification with microphoneId and cameraId both
    set, calling [createStream] a second time with the same input (the same
    object as the first call left it, or an object with the contents of the
    first input), in whatever state the service is by then, passes the SDK
    the specification the first call passed, provided that each of the two
    identifiers is a non-empty string or the cache it defaults from is as it
    was at the first call; when both identifiers are non-empty that
    specification is the input itself. *)
Theorem createStream_twice_same_call w w' l l2 s m c :
  heap w !! l = Some s →
  microphoneId s = Some m →
  cameraId s = Some c →
  heap w' !! l2 = Some s ∨ heap w' !! l2 = heap (createStream rtc l w).2 !! l →
  m ≠ "" ∨ audioDevices (this w') = audioDevices (this w) →
  c ≠ "" ∨ videoDevices (this w') = videoDevices (this w) →
  ∃ s' r1 r2,
    calls (createStream rtc l w).2 = calls w ++ [Call_createStream l s' r1] ∧
    calls (createStream rtc l2 w').2 = calls w' ++ [Call_createStream l2 s' r2] ∧
    (m ≠ "" → c ≠ "" → s' = s).
Proof.
  intros Hs Hm Hc Hin Hmic Hcam.
  destruct (default_for_stable _ m _ _ Hm Hmic) as [Hm1 Hm2].
  destruct (default_for_stable _ c _ _ Hc Hcam) as [Hc1 Hc2].
  exists (effective_spec (this w) s),
    (sdk_createStream rtc (calls w) (effective_spec (this w) s)),
    (sdk_createStream rtc (calls w') (effective_spec (this w) s)).
  rewrite (createStream_run w l s Hs) in *. cbn [snd log with_heap heap calls] in *.
  split; [reflexivity|]. split.
  - destruct Hin as [Hin | Hin].
    + rewrite (createStream_run w' l2 s Hin). cbn [snd log calls].
      by rewrite (effective_spec_ext (this w) (this w') s Hm1 Hc1).
    + rewrite lookup_insert_eq in Hin.
      rewrite (createStream_run w' l2 _ Hin). cbn [snd log calls].
      by rewrite (effective_spec_again (this w) (this w') s Hm2 Hc2).
  - intros Hmne Hcne. apply effective_spec_unchanged.
    + rewrite Hm. by apply default_for_truthy, truthy_Some_nonempty.
    + rewrite Hc. by apply default_for_truthy, truthy_Some_nonempty.
Qed.

(** C9: [createStream] applies the defaults by writing into the caller's
    own object: after the call the object at the caller's reference is the
    one the SDK was given, carrying the selected deviceId in microphoneId or
    cameraId; no other object changes, and when no default applies the heap
    is left as it was. *)
Theorem createStream_mutates_in_place w l s :
  heap w !! l = Some s →
  let w' := (createStream rtc l w).2 in
  ∃ s' r,
    heap w' !! l = Some s' ∧
    calls w' = calls w ++ [Call_createStream l s' r] ∧
    (∀ d ds, truthy (microphoneId s) = false →
             audioDevices (this w) = Some (d :: ds) →
             microphoneId s' = Some (deviceId d)) ∧
    (∀ d ds, truthy (cameraId s) = false →
             videoDevices (this w) = Some (d :: ds) →
             cameraId s' = Some (deviceId d)) ∧
    (∀ l', l' ≠ l → heap w' !! l' = heap w !! l') ∧
    ((truthy (microphoneId s) = true ∨ no_devices (audioDevices (this w))) →
     (truthy (cameraId s) = true ∨ no_devices (videoDevices (this w))) →
     heap w' = heap w).
Proof.
  intros Hs w'. subst w'. exists (effective_spec (this w) s). eexists.
  rewrite (createStream_run w l s Hs). cbn [snd log with_heap heap calls].
  split; [apply lookup_insert_eq|]. split; [reflexivity|].
  split; [eauto using effective_microphoneId_default|].
  split; [eauto using effective_cameraId_default|].
  split.
  - intros l' Hne. by apply lookup_insert_ne.
  - intros Hm Hc. rewrite effective_spec_unchanged.
    + by apply insert_id.
    + destruct Hm; [by apply default_for_truthy | by apply default_for_no_devices].
    + destruct Hc; [by apply default_for_truthy | by apply default_for_no_devices].
Qed.

(** ** The shape of every operation *)

Lemma createStream_missing w l :
  heap w !! l = None →
  createStream rtc l w = (Throw (TypeError "Cannot read property of undefined"), w).
Proof.
  intros Hl. unfold createStream, mbind, M_bind, bind, read. by rewrite Hl.
Qed.

Lemma this_client_run w c m args :
  client (this w) = Some c →
  let r := sdk_client rtc (calls w) c m args in
  this_client rtc m args w = (of_sdk r, log (Call_client c m args r) w).
Proof.
  intros Hc. unfold this_client, mbind, M_bind, bind, gets. by rewrite Hc.
Qed.

Lemma this_client_undefined w m args :
  client (this w) = None →
  this_client rtc m args w = (Throw (TypeError "Cannot read property of undefined"), w).
Proof.
  intros Hc. unfold this_client, mbind, M_bind, bind, gets. by rewrite Hc.
Qed.

Lemma createClient_failed w cfg e :
  sdk_createClient rtc (calls w) cfg = inr e →
  createClient rtc cfg w
  = (Throw (SdkThrow e), log (Call_createClient cfg (inr e)) w).
Proof.
  intros Hr. unfold createClient, mbind, M_bind, bind, AgoraRTC_createClient.
  by rewrite Hr.
Qed.

Lemma createClient_created w cfg c :
  sdk_createClient rtc (calls w) cfg = inl c →
  let w1 := with_this (set_client c) (log (Call_createClient cfg (inl c)) w) in
  let args := [JString (AppID (config (this w)))] in
  let r := sdk_client rtc (calls w1) c Client.init args in
  createClient rtc cfg w
  = (match r with inl _ => Normal tt | inr e => Throw (SdkThrow e) end,
     log (Call_client c Client.init args r) w1).
Proof.
  intros Hr w1 args r.
  unfold createClient, mbind, M_bind, bind, AgoraRTC_createClient, modify, gets.
  rewrite Hr. cbn [of_sdk]. fold w1.
  rewrite (this_client_run w1 c) by done. cbn zeta.
  change (config (this w1)) with (config (this w)).
  fold args. fold r. by destruct r.
Qed.

Lemma deliver_devices_run w rest devices :
  pending w = collectDevices_callback :: rest →
  deliver_devices devices w
  = (Normal tt,
     with_this (set_videoDevices (List.filter is_video_input devices))
       (with_this (set_audioDevices (List.filter is_audio_input devices))
          (with_pending (λ _, rest) w))).
Proof. intros Hp. unfold deliver_devices. by rewrite Hp. Qed.

Lemma run_invariant (I : World → Prop) :
  (∀ a w, I w → I (exec rtc a w)) →
  ∀ acts w, I w → I (run rtc acts w).
Proof.
  intros Hstep acts. induction acts as [|a acts IH]; intros w Hw; [done|].
  simpl. apply IH, Hstep, Hw.
Qed.

(** No operation assigns [this.config]. *)
Lemma exec_config a w : config (this (exec rtc a w)) = config (this w).
Proof.
  destruct a as [cfg|l|m args|l s|devices|]; simpl; try done.
  - destruct (sdk_createClient rtc (calls w) cfg) as [c|e] eqn:Hr.
    + by rewrite (createClient_created w cfg c Hr).
    + by rewrite (createClient_failed w cfg e Hr).
  - destruct (heap w !! l) as [s|] eqn:Hl.
    + by rewrite (createStream_run w l s Hl).
    + by rewrite (createStream_missing w l Hl).
  - destruct (client (this w)) as [c|] eqn:Hc.
    + by rewrite (this_client_run w c m args Hc).
    + by rewrite (this_client_undefined w m args Hc).
  - unfold deliver_devices. by destruct (pending w) as [|[] rest].
Qed.

(** [this.client] is always the object the SDK created last. *)
Lemma exec_client a w :
  client (this w) = last_created (calls w) →
  client (this (exec rtc a w)) = last_created (calls (exec rtc a w)).
Proof.
  intros Hw. unfold last_created in *.
  destruct a as [cfg|l|m args|l s|devices|]; simpl; try done.
  - destruct (sdk_createClient rtc (calls w) cfg) as [c|e] eqn:Hr.
    + rewrite (createClient_created w cfg c Hr); simpl.
      rewrite !omap_app; simpl. by rewrite app_nil_r, last_snoc.
    + rewrite (createClient_failed w cfg e Hr); simpl.
      rewrite omap_app; simpl. rewrite app_nil_r. congruence.
  - destruct (heap w !! l) as [s|] eqn:Hl.
    + rewrite (createStream_run w l s Hl); simpl.
      rewrite omap_app; simpl. rewrite app_nil_r. congruence.
    + by rewrite (createStream_missing w l Hl).
  - destruct (client (this w)) as [c|] eqn:Hc.
    + rewrite (this_client_run w c m args Hc); simpl.
      rewrite omap_app; simpl. rewrite app_nil_r. congruence.
    + rewrite (this_client_undefined w m args Hc); simpl. congruence.
  - unfold deliver_devices. by destruct (pending w) as [|[] rest].
Qed.

(** With no enumeration outstanding, the caches stay as they are and no
    operation starts one. *)
Lemma exec_no_enumeration a w :
  pending w = [] →
  forallb (λ c, negb (is_getDevices c)) (calls w) = true →
  pending (exec rtc a w) = [] ∧
  forallb (λ c, negb (is_getDevices c)) (calls (exec rtc a w)) = true ∧
  audioDevices (this (exec rtc a w)) = audioDevices (this w) ∧
  videoDevices (this (exec rtc a w)) = videoDevices (this w).
Proof.
  intros Hp Hc.
  destruct a as [cfg|l|m args|l s|devices|]; simpl.
  - destruct (sdk_createClient rtc (calls w) cfg) as [c|e] eqn:Hr.
    + rewrite (createClient_created w cfg c Hr); simpl.
      by rewrite !forallb_app, Hc.
    + rewrite (createClient_failed w cfg e Hr); simpl.
      by rewrite !forallb_app, Hc.
  - destruct (heap w !! l) as [s|] eqn:Hl.
    + rewrite (createStream_run w l s Hl); simpl.
      by rewrite !forallb_app, Hc.
    + by rewrite (createStream_missing w l Hl).
  - destruct (client (this w)) as [c|] eqn:Hcl.
    + rewrite (this_client_run w c m args Hcl); simpl.
      by rewrite !forallb_app, Hc.
    + by rewrite (this_client_undefined w m args Hcl).
  - done.
  - unfold deliver_devices. by rewrite Hp.
  - by rewrite Hp.
Qed.

(** ** Construction *)

Lemma constructor_unsupported cfg :
  sdk_checkSystemRequirements rtc [] = false →
  constructor rtc (fresh cfg)
  = (Normal tt,
     log (Call_Logger_error "Web RTC is not supported in this browser")
       (log (Call_checkSystemRequirements false) (fresh cfg))).
Proof.
  intros Hc. unfold constructor, mbind, M_bind, bind, checkSystemRequirements,
    AgoraRTC_checkSystemRequirements. simpl. by rewrite Hc.
Qed.

Lemma constructor_supported cfg :
  sdk_checkSystemRequirements rtc [] = true →
  constructor rtc (fresh cfg)
  = (Normal tt,
     with_pending (λ p, p ++ [collectDevices_callback])
       (log (Call_getDevices collectDevices_callback)
          (log (Call_checkSystemRequirements true) (fresh cfg)))).
Proof.
  intros Hc. unfold constructor, mbind, M_bind, bind, checkSystemRequirements,
    AgoraRTC_checkSystemRequirements. simpl. by rewrite Hc.
Qed.

Lemma new_service_this cfg :
  this (new_service rtc cfg)
  = {| config := cfg; client := None; audioDevices := None; videoDevices := None |}.
Proof.
  unfold new_service.
  destruct (sdk_checkSystemRequirements rtc []) eqn:Hc.
  - by rewrite constructor_supported.
  - by rewrite constructor_unsupported.
Qed.

Lemma new_service_last_created cfg :
  last_created (calls (new_service rtc cfg)) = None.
Proof.
  unfold new_service.
  destruct (sdk_checkSystemRequirements rtc []) eqn:Hc.
  - by rewrite constructor_supported.
  - by rewrite constructor_unsupported.
Qed.

(** Throughout the life of a service, [this.config] is the constructor's
    argument. *)
Lemma reachable_config cfg acts :
  config (this (run rtc acts (new_service rtc cfg))) = cfg.
Proof.
  apply (run_invariant (λ w, config (this w) = cfg)).
  - intros a w Hw. by rewrite exec_config.
  - by rewrite new_service_this.
Qed.

(** Throughout the life of a service, [this.client] is the object the SDK
    created last. *)
Lemma reachable_client cfg acts :
  let w := run rtc acts (new_service rtc cfg) in
  client (this w) = last_created (calls w).
Proof.
  apply (run_invariant (λ w, client (this w) = last_created (calls w))).
  - apply exec_client.
  - by rewrite new_service_this, new_service_last_created.
Qed.

(** C5: if the compatibility check answers false when the service is
    constructed, the constructor completes normally, its only other SDK
    call is the error log entry, and whatever happens to the service
    afterwards no device enumeration is ever requested and both device
    caches stay unset. *)
Theorem constructor_incompatible cfg acts :
  sdk_checkSystemRequirements rtc [] = false →
  (constructor rtc (fresh cfg)).1 = Normal tt ∧
  calls (new_service rtc cfg)
  = [Call_checkSystemRequirements false;
     Call_Logger_error "Web RTC is not supported in this browser"] ∧
  let w := run rtc acts (new_service rtc cfg) in
  forallb (λ c, negb (is_getDevices c)) (calls w) = true ∧
  audioDevices (this w) = None ∧
  videoDevices (this w) = None.
Proof.
  intros Hc. unfold new_service. rewrite (constructor_unsupported cfg Hc).
  split; [done|]. split; [done|]. simpl.
  set (w0 := log _ _).
  enough (Hinv : pending (run rtc acts w0) = [] ∧
                 forallb (λ c, negb (is_getDevices c)) (calls (run rtc acts w0)) = true ∧
                 audioDevices (this (run rtc acts w0)) = None ∧
                 videoDevices (this (run rtc acts w0)) = None) by tauto.
  apply (run_invariant
           (λ w, pending w = [] ∧
                 forallb (λ c, negb (is_getDevices c)) (calls w) = true ∧
                 audioDevices (this w) = None ∧ videoDevices (this w) = None));
    [|done].
  intros a w (Hp & Hl & Ha & Hv).
  destruct (exec_no_enumeration a w Hp Hl) as (Hp' & Hl' & Ha' & Hv').
  by rewrite Ha', Hv'.
Qed.

(** ** The device registry *)

Lemma Selected_filter {A} (P : A → Prop) (f : A → bool) :
  (∀ x, f x = true ↔ P x) → ∀ l, Selected P l (List.filter f l).
Proof.
  intros Hf l. induction l as [|x xs IH]; simpl; [constructor|].
  destruct (f x) eqn:Hx.
  - apply Selected_keep; [by apply Hf | done].
  - apply Selected_skip; [|done]. intros HP. apply Hf in HP. congruence.
Qed.

(** [Selected] determines its result. *)
Lemma Selected_unique {A} (P : A → Prop) l k1 k2 :
  Selected P l k1 → Selected P l k2 → k1 = k2.
Proof.
  intros H1. revert k2.
  induction H1 as [|x xs ys HP _ IH|x xs ys HP _ IH]; intros k2 H2;
    inversion H2; subst; try contradiction; try done.
  - f_equal. by apply IH.
  - by apply IH.
Qed.

Lemma is_audio_input_spec d :
  is_audio_input d = true ↔ audio_input_not_default d.
Proof.
  unfold is_audio_input, audio_input_not_default.
  rewrite andb_true_iff, negb_true_iff, String.eqb_eq, String.eqb_neq. done.
Qed.

Lemma is_video_input_spec d :
  is_video_input d = true ↔ video_input_not_default d.
Proof.
  unfold is_video_input, video_input_not_default.
  rewrite andb_true_iff, negb_true_iff, String.eqb_eq, String.eqb_neq. done.
Qed.

(** C2: when the SDK answers the enumeration, the cached audio-input list
    consists of exactly the enumerated descriptors of kind 'audioinput'
    whose deviceId is not 'default', in enumeration order, and the cached
    video-input list of exactly those of kind 'videoinput' whose deviceId is
    not 'default', in enumeration order; an 'a' audio input, a 'default'
    audio input and a 'b' video input give audio cache [a] and video cache
    [b]. *)
Theorem enumeration_fills_caches w rest devices :
  pending w = collectDevices_callback :: rest →
  let w' := (deliver_devices devices w).2 in
  ∃ a v,
    audioDevices (this w') = Some a ∧
    videoDevices (this w') = Some v ∧
    Selected audio_input_not_default devices a ∧
    Selected video_input_not_default devices v ∧
    ∀ la ld lb,
      devices = [ {| deviceId := "a"; kind := "audioinput"; label := la |};
                  {| deviceId := "default"; kind := "audioinput"; label := ld |};
                  {| deviceId := "b"; kind := "videoinput"; label := lb |} ] →
      a = [ {| deviceId := "a"; kind := "audioinput"; label := la |} ] ∧
      v = [ {| deviceId := "b"; kind := "videoinput"; label := lb |} ].
Proof.
  intros Hp w'. subst w'. rewrite (deliver_devices_run w rest devices Hp).
  exists (List.filter is_audio_input devices), (List.filter is_video_input devices).
  split; [done|]. split; [done|].
  split; [apply Selected_filter, is_audio_input_spec|].
  split; [apply Selected_filter, is_video_input_spec|].
  by intros la ld lb ->.
Qed.

Lemma filter_filter_same {A} (f : A → bool) l :
  List.filter f (List.filter f l) = List.filter f l.
Proof.
  induction l as [|x xs IH]; simpl; [done|].
  destruct (f x) eqn:Hx; simpl; [|done]. by rewrite Hx, IH.
Qed.

Lemma filter_filter_disjoint {A} (f g : A → bool) l :
  (∀ x, f x = true → g x = false) →
  List.filter g (List.filter f l) = [].
Proof.
  intros Hd. induction l as [|x xs IH]; simpl; [done|].
  destruct (f x) eqn:Hx; simpl; [|done]. by rewrite (Hd x Hx).
Qed.

Lemma audio_not_video d : is_audio_input d = true → is_video_input d = false.
Proof.
  unfold is_audio_input, is_video_input. intros [Hk _]%andb_true_iff.
  apply String.eqb_eq in Hk. by rewrite Hk.
Qed.

Lemma video_not_audio d : is_video_input d = true → is_audio_input d = false.
Proof.
  unfold is_audio_input, is_video_input. intros [Hk _]%andb_true_iff.
  apply String.eqb_eq in Hk. by rewrite Hk.
Qed.

(** C8: the partition is idempotent: running the enumeration callback a
    second time on the same devices leaves the service as the first run left
    it, and running it on its own output (the cached audio inputs followed
    by the cached video inputs) leaves both caches unchanged; each cache is
    a fixed point of its own filter. *)
Theorem partition_idempotent w devices :
  let w1 := (run_callback collectDevices_callback devices w).2 in
  (run_callback collectDevices_callback devices w1).2 = w1 ∧
  (run_callback collectDevices_callback (audio_cache w1 ++ video_cache w1) w1).2 = w1 ∧
  List.filter is_audio_input (audio_cache w1) = audio_cache w1 ∧
  List.filter is_video_input (video_cache w1) = video_cache w1.
Proof.
  simpl. unfold audio_cache, video_cache, with_this, set_videoDevices,
    set_audioDevices. simpl.
  rewrite !List.filter_app, !filter_filter_same.
  rewrite (filter_filter_disjoint is_video_input is_audio_input) by apply video_not_audio.
  rewrite (filter_filter_disjoint is_audio_input is_video_input) by apply audio_not_video.
  by rewrite app_nil_r.
Qed.

(** ** The client *)

(** C10: [createClient] stores the client object the SDK created in
    [this.client] and at once calls that object's [init] with the AppID of
    the configuration the service was constructed with, and with no other
    argument; a later [createClient] replaces the stored client. *)
Theorem createClient_stores_and_inits cfg0 acts cfg c :
  let w := run rtc acts (new_service rtc cfg0) in
  sdk_createClient rtc (calls w) cfg = inl c →
  let w' := (createClient rtc cfg w).2 in
  client (this w') = Some c ∧
  (∃ r, calls w' = calls w ++ [Call_createClient cfg (inl c);
                               Call_client c Client.init [JString (AppID cfg0)] r]) ∧
  ∀ cfg2 c2,
    sdk_createClient rtc (calls w') cfg2 = inl c2 →
    client (this (createClient rtc cfg2 w').2) = Some c2.
Proof.
  intros w Hr w'. subst w'.
  rewrite (createClient_created w cfg c Hr). cbn [snd].
  split; [done|]. split.
  - eexists. cbn [calls log with_this]. subst w. rewrite reachable_config.
    by rewrite <- app_assoc.
  - intros cfg2 c2 Hr2. by rewrite (createClient_created _ cfg2 c2 Hr2).
Qed.

End Properties.

(** * The properties on a concrete service *)

Section Concrete.
Import Sample.

(** The scenario of the specification: [{audio: true, video: true}] with
    caches [a] and [b] reaches the SDK with microphoneId "a" and cameraId
    "b". *)
Lemma createStream_applies_defaults_witness :
  ∃ s' r,
    calls (createStream rtc one (ready spec_av)).2
    = calls (ready spec_av) ++ [Call_createStream one s' r] ∧
    microphoneId s' = Some "a" ∧ cameraId s' = Some "b".
Proof.
  destruct (createStream_applies_defaults rtc (ready spec_av) one spec_av eq_refl)
    as (s' & r & Hcalls & Hmic & Hcam & _).
  exists s', r. split; [exact Hcalls|]. split.
  - exact (Hmic (device "a" "audioinput") [] eq_refl eq_refl).
  - exact (Hcam (device "b" "videoinput") [] eq_refl eq_refl).
Defined.

(** A caller who sets microphoneId to the empty string has it replaced by
    the cached device: the object reaches the SDK with microphoneId "a". *)
Lemma createStream_replaces_empty_microphoneId :
  let spec := set_microphoneId (Some "") spec_av in
  let w := ready spec in
  let sent := set_cameraId (Some "b") (set_microphoneId (Some "a") spec) in
  heap w !! one = Some spec ∧
  microphoneId spec = Some "" ∧
  audioDevices (this w) = Some [device "a" "audioinput"] ∧
  calls (createStream rtc one w).2 = calls w ++ [Call_createStream one sent (inl 2)] ∧
  microphoneId sent ≠ microphoneId spec.
Proof. repeat split; try reflexivity. discriminate. Qed.

Lemma createStream_without_devices_witness :
  createStream rtc one (unanswered spec_av)
  = (Normal 2, log (Call_createStream one spec_av (inl 2)) (unanswered spec_av)) ∧
  ∀ msg, (createStream rtc one (unanswered spec_av)).1 ≠ Throw (TypeError msg).
Proof.
  exact (createStream_without_devices rtc (unanswered spec_av) one spec_av
           eq_refl (or_introl eq_refl) (or_introl eq_refl)).
Defined.

(** The SDK of [rtc_unsupported] throws from its stream constructor; the
    caller receives that very value. *)
Lemma createStream_returns_sdk_result_witness :
  (createStream rtc_unsupported one (with_heap (insert one spec_av) (fresh cfg))).1
  = Throw (SdkThrow "NOT_SUPPORTED").
Proof.
  pose proof (createStream_returns_sdk_result rtc_unsupported
                (with_heap (insert one spec_av) (fresh cfg)) one spec_av eq_refl)
    as (_ & _ & Hthrow).
  exact (Hthrow "NOT_SUPPORTED" eq_refl).
Defined.

(** The enumeration answers between the two calls; the identifiers are
    non-empty, so both calls pass the input itself. *)
Lemma createStream_twice_same_call_witness :
  let spec := set_cameraId (Some "cam") (set_microphoneId (Some "mic") spec_av) in
  let w := run rtc [Do_new_spec one spec] (new_service rtc cfg) in
  let w' := run rtc [Sdk_devices enumerated; Do_createClient "live"]
              (createStream rtc one w).2 in
  ∃ s' r1 r2,
    calls (createStream rtc one w).2 = calls w ++ [Call_createStream one s' r1] ∧
    calls (createStream rtc one w').2 = calls w' ++ [Call_createStream one s' r2] ∧
    ("mic" ≠ "" → "cam" ≠ "" → s' = spec).
Proof.
  intros spec w w'.
  apply (createStream_twice_same_call rtc w w' one one spec "mic" "cam");
    try reflexivity; left; (reflexivity || discriminate).
Defined.

(** Both identifiers set to the empty string, and the enumeration
    answering between the two calls: the first call passes the SDK the
    empty identifiers, the second, on the same object, passes "a" and
    "b". *)
Lemma createStream_twice_differs_after_answer :
  let spec := set_cameraId (Some "") (set_microphoneId (Some "") spec_av) in
  let w := run rtc [Do_new_spec one spec] (new_service rtc cfg) in
  let w1 := (createStream rtc one w).2 in
  let w1' := exec rtc (Sdk_devices enumerated) w1 in
  let w2 := (createStream rtc one w1').2 in
  let sent := set_cameraId (Some "b") (set_microphoneId (Some "a") spec) in
  microphoneId spec = Some "" ∧ cameraId spec = Some "" ∧
  heap w !! one = Some spec ∧
  calls w1 = calls w ++ [Call_createStream one spec (inl 2)] ∧
  heap w1' !! one = Some spec ∧
  calls w2 = calls w1' ++ [Call_createStream one sent (inl 3)] ∧
  sent ≠ spec.
Proof. repeat split; try reflexivity. discriminate. Qed.

Lemma createStream_mutates_in_place_witness :
  ∃ s',
    heap (createStream rtc one (ready spec_av)).2 !! one = Some s' ∧
    microphoneId s' = Some "a" ∧ cameraId s' = Some "b".
Proof.
  destruct (createStream_mutates_in_place rtc (ready spec_av) one spec_av eq_refl)
    as (s' & r & Hheap & _ & Hmic & Hcam & _).
  exists s'. split; [exact Hheap|]. split.
  - exact (Hmic (device "a" "audioinput") [] eq_refl eq_refl).
  - exact (Hcam (device "b" "videoinput") [] eq_refl eq_refl).
Defined.

Lemma enumeration_fills_caches_witness :
  ∃ a v,
    audioDevices (this (deliver_devices enumerated (new_service rtc cfg)).2) = Some a ∧
    videoDevices (this (deliver_devices enumerated (new_service rtc cfg)).2) = Some v ∧
    a = [device "a" "audioinput"] ∧ v = [device "b" "videoinput"].
Proof.
  destruct (enumeration_fills_caches (new_service rtc cfg) [] enumerated eq_refl)
    as (a & v & Ha & Hv & _ & _ & Hscenario).
  exists a, v. split; [exact Ha|]. split; [exact Hv|].
  exact (Hscenario "" "" "" eq_refl).
Defined.

Lemma constructor_incompatible_witness :
  let w := run rtc_unsupported
             [Sdk_devices enumerated; Do_new_spec one spec_av; Do_createStream one]
             (new_service rtc_unsupported cfg) in
  forallb (λ c, negb (is_getDevices c)) (calls w) = true ∧
  audioDevices (this w) = None ∧
  videoDevices (this w) = None.
Proof.
  pose proof (constructor_incompatible rtc_unsupported cfg
                [Sdk_devices enumerated; Do_new_spec one spec_av; Do_createStream one]
                eq_refl) as (_ & _ & Hlater).
  exact Hlater.
Defined.

Lemma createClient_stores_and_inits_witness :
  let w := run rtc [Do_createClient "first"] (new_service rtc cfg) in
  let w' := (createClient rtc "second" w).2 in
  client (this w) = Some 2 ∧
  client (this w') = Some 4 ∧
  ∃ r, calls w' = calls w ++ [Call_createClient "second" (inl 4);
                              Call_client 4 Client.init [JString "app-id"] r].
Proof.
  pose proof (createClient_stores_and_inits rtc cfg [Do_createClient "first"]
                "second" 4 eq_refl) as (Hclient & Hcalls & _).
  split; [reflexivity|]. split; [exact Hclient | exact Hcalls].
Defined.

End Concrete.

(** * Further properties of the service *)

Section Lifecycle_properties.
Context `{SdkTypes}.
Variable rtc : AgoraRTC.

(** ** What each action leaves alone *)

(** A consumer's action never touches the caches or the outstanding
    enumeration; an answer of the SDK does not either once nothing is
    outstanding. *)
Lemma exec_caches a w :
  is_consumer a = true ∨ pending w = [] →
  pending (exec rtc a w) = pending w ∧
  audioDevices (this (exec rtc a w)) = audioDevices (this w) ∧
  videoDevices (this (exec rtc a w)) = videoDevices (this w).
Proof.
  intros Hcase.
  destruct a as [cfg|l|m args|l s|devices|]; simpl.
  - destruct (sdk_createClient rtc (calls w) cfg) as [c|e] eqn:Hr.
    + by rewrite (createClient_created rtc w cfg c Hr).
    + by rewrite (createClient_failed rtc w cfg e Hr).
  - destruct (heap w !! l) as [s|] eqn:Hl.
    + by rewrite (createStream_run rtc w l s Hl).
    + by rewrite (createStream_missing rtc w l Hl).
  - destruct (client (this w)) as [c|] eqn:Hc.
    + by rewrite (this_client_run rtc w c m args Hc).
    + by rewrite (this_client_undefined rtc w m args Hc).
  - done.
  - destruct Hcase as [?|Hp]; [done|]. unfold deliver_devices. by rewrite Hp.
  - destruct Hcase as [?|Hp]; [done|]. by rewrite Hp.
Qed.

Lemma run_consumer_caches acts w :
  forallb is_consumer acts = true →
  pending (run rtc acts w) = pending w ∧
  audioDevices (this (run rtc acts w)) = audioDevices (this w) ∧
  videoDevices (this (run rtc acts w)) = videoDevices (this w).
Proof.
  revert w. induction acts as [|a acts IH]; intros w Hacts; [done|].
  simpl in Hacts. apply andb_true_iff in Hacts as [Ha Hacts].
  simpl. destruct (IH (exec rtc a w) Hacts) as (-> & -> & ->).
  apply exec_caches. by left.
Qed.

Lemma run_answered_caches acts w :
  pending w = [] →
  pending (run rtc acts w) = [] ∧
  audioDevices (this (run rtc acts w)) = audioDevices (this w) ∧
  videoDevices (this (run rtc acts w)) = videoDevices (this w).
Proof.
  revert w. induction acts as [|a acts IH]; intros w Hp; [done|].
  destruct (exec_caches a w (or_intror Hp)) as (Hp' & Ha' & Hv').
  simpl. rewrite Hp in Hp'.
  destruct (IH (exec rtc a w) Hp') as (-> & -> & ->). by rewrite Ha', Hv'.
Qed.

(** No action calls [getDevices]. *)
Lemma exec_new_calls a w :
  ∃ extra, calls (exec rtc a w) = calls w ++ extra ∧
           List.filter is_getDevices extra = [].
Proof.
  destruct a as [cfg|l|m args|l s|devices|]; simpl.
  - destruct (sdk_createClient rtc (calls w) cfg) as [c|e] eqn:Hr.
    + rewrite (createClient_created rtc w cfg c Hr); simpl.
      eexists [_; _]. by rewrite <- app_assoc.
    + rewrite (createClient_failed rtc w cfg e Hr); simpl. by eexists [_].
  - destruct (heap w !! l) as [s|] eqn:Hl.
    + rewrite (createStream_run rtc w l s Hl); simpl. by eexists [_].
    + rewrite (createStream_missing rtc w l Hl). exists []. by rewrite app_nil_r.
  - destruct (client (this w)) as [c|] eqn:Hc.
    + rewrite (this_client_run rtc w c m args Hc); simpl. by eexists [_].
    + rewrite (this_client_undefined rtc w m args Hc). exists []. by rewrite app_nil_r.
  - exists []. by rewrite app_nil_r.
  - exists []. rewrite app_nil_r. unfold deliver_devices.
    by destruct (pending w) as [|[] rest].
  - exists []. by rewrite app_nil_r.
Qed.

Lemma new_service_pending cfg :
  pending (new_service rtc cfg)
  = if sdk_checkSystemRequirements rtc [] then [collectDevices_callback] else [].
Proof.
  unfold new_service. destruct (sdk_checkSystemRequirements rtc []) eqn:Hc.
  - by rewrite constructor_supported.
  - by rewrite constructor_unsupported.
Qed.

Lemma new_service_count cfg :
  count_getDevices (calls (new_service rtc cfg))
  = if sdk_checkSystemRequirements rtc [] then 1 else 0.
Proof.
  unfold new_service. destruct (sdk_checkSystemRequirements rtc []) eqn:Hc.
  - by rewrite constructor_supported.
  - by rewrite constructor_unsupported.
Qed.

(** ** Enumeration over the life of a service *)

(** X1: the service asks the SDK for the devices at construction and never
    again: in every state a service can reach, the log shows exactly one
    [getDevices] call if the compatibility check passed and none if it did
    not, and at most that many answers are outstanding. *)
Theorem enumeration_requested_once cfg acts :
  let w := run rtc acts (new_service rtc cfg) in
  count_getDevices (calls w) = (if sdk_checkSystemRequirements rtc [] then 1 else 0) ∧
  length (pending w) ≤ count_getDevices (calls w).
Proof.
  apply (run_invariant rtc
           (λ w, count_getDevices (calls w)
                 = (if sdk_checkSystemRequirements rtc [] then 1 else 0) ∧
                 length (pending w) ≤ count_getDevices (calls w))).
  - intros a w [Hcount Hpend].
    destruct (exec_new_calls a w) as (extra & Hcalls & Hextra).
    assert (Hsame : count_getDevices (calls (exec rtc a w)) = count_getDevices (calls w)).
    { unfold count_getDevices. rewrite Hcalls, List.filter_app, Hextra.
      by rewrite app_nil_r. }
    rewrite Hsame. split; [done|].
    destruct (is_consumer a) eqn:Ha.
    + destruct (exec_caches a w (or_introl Ha)) as (-> & _). done.
    + destruct a as [cfg'|l|m args|l s|devices|]; try discriminate; simpl.
      * unfold deliver_devices.
        destruct (pending w) as [|[] rest] eqn:Hp; simpl in *; rewrite ?Hp; simpl; lia.
      * destruct (pending w) as [|cb rest]; simpl in *; [done|].
        rewrite drop_0. lia.
  - rewrite new_service_count, new_service_pending.
    by destruct (sdk_checkSystemRequirements rtc []).
Qed.

(** X2: only the enumeration callback writes the caches.  On a browser
    that passes the check, whatever the consumer does before the SDK answers
    the enumeration and whatever the consumer does afterwards, the caches
    hold the filtered devices of that answer. *)
Theorem caches_hold_answer cfg pre devices post :
  sdk_checkSystemRequirements rtc [] = true →
  forallb is_consumer pre = true →
  forallb is_consumer post = true →
  let w := run rtc post
             (exec rtc (Sdk_devices devices) (run rtc pre (new_service rtc cfg))) in
  audioDevices (this w) = Some (List.filter is_audio_input devices) ∧
  videoDevices (this w) = Some (List.filter is_video_input devices).
Proof.
  intros Hcheck Hpre Hpost w. subst w.
  set (w0 := run rtc pre (new_service rtc cfg)).
  destruct (run_consumer_caches pre (new_service rtc cfg) Hpre) as (Hp0 & _ & _).
  fold w0 in Hp0. rewrite new_service_pending, Hcheck in Hp0.
  assert (Hw1 : exec rtc (Sdk_devices devices) w0
                = with_this (set_videoDevices (List.filter is_video_input devices))
                    (with_this (set_audioDevices (List.filter is_audio_input devices))
                       (with_pending (λ _, []) w0))).
  { simpl. by rewrite (deliver_devices_run w0 [] devices Hp0). }
  rewrite Hw1. set (w1 := with_this _ _).
  destruct (run_consumer_caches post w1 Hpost) as (_ & -> & ->).
  done.
Qed.

(** X3: a failed enumeration is final.  If the first thing the SDK does
    about the enumeration is to fail it, both caches are unset from then
    on, whatever happens afterwards. *)
Theorem enumeration_failure_is_final cfg pre post :
  forallb is_consumer pre = true →
  let w := run rtc post
             (exec rtc Sdk_devices_failed (run rtc pre (new_service rtc cfg))) in
  audioDevices (this w) = None ∧ videoDevices (this w) = None.
Proof.
  intros Hpre w. subst w.
  set (w0 := run rtc pre (new_service rtc cfg)).
  destruct (run_consumer_caches pre (new_service rtc cfg) Hpre) as (Hp0 & Ha0 & Hv0).
  fold w0 in Hp0, Ha0, Hv0.
  rewrite new_service_pending in Hp0. rewrite new_service_this in Ha0, Hv0.
  assert (Hp1 : pending (exec rtc Sdk_devices_failed w0) = []).
  { simpl. rewrite Hp0. by destruct (sdk_checkSystemRequirements rtc []). }
  destruct (run_answered_caches post _ Hp1) as (_ & -> & ->).
  done.
Qed.

(** X4: a specification passed to [createStream] before the SDK has
    answered the enumeration gets no defaults, on any browser: it reaches
    the SDK unchanged, and nothing else in the world changes. *)
Theorem createStream_before_answer cfg pre l s :
  forallb is_consumer pre = true →
  let w := run rtc pre (new_service rtc cfg) in
  heap w !! l = Some s →
  let r := sdk_createStream rtc (calls w) s in
  createStream rtc l w = (of_sdk r, log (Call_createStream l s r) w).
Proof.
  intros Hpre w Hs r.
  destruct (run_consumer_caches pre (new_service rtc cfg) Hpre) as (_ & Ha & Hv).
  fold w in Ha, Hv. rewrite new_service_this in Ha, Hv. simpl in Ha, Hv.
  rewrite (createStream_run rtc w l s Hs). cbn zeta.
  rewrite effective_spec_unchanged by (by rewrite ?Ha, ?Hv).
  by rewrite with_heap_insert_id.
Qed.

(** ** Which device becomes the default *)

Lemma default_for_filter f devices field :
  default_for field (Some (List.filter f devices)) = selected_id f devices field.
Proof.
  unfold selected_id. induction devices as [|d ds IH]; simpl.
  - by destruct (truthy field).
  - destruct (f d); simpl; [done | exact IH].
Qed.

(** X5: enumeration and stream construction composed.  Once the SDK has
    answered with [devices], a field the caller left unset or empty becomes
    the deviceId of the first enumerated device of the right input kind whose
    deviceId is not 'default'; if the enumeration has no such device, or the
    caller gave a non-empty identifier, the field stays as the caller had
    it. *)
Theorem default_is_first_enumerated w rest devices l s :
  pending w = collectDevices_callback :: rest →
  heap w !! l = Some s →
  let w1 := (deliver_devices devices w).2 in
  ∃ s' r,
    calls (createStream rtc l w1).2 = calls w ++ [Call_createStream l s' r] ∧
    heap (createStream rtc l w1).2 !! l = Some s' ∧
    microphoneId s' = selected_id is_audio_input devices (microphoneId s) ∧
    cameraId s' = selected_id is_video_input devices (cameraId s).
Proof.
  intros Hp Hs w1. subst w1. rewrite (deliver_devices_run w rest devices Hp).
  cbn [snd]. set (w1 := with_this _ _).
  assert (Hs1 : heap w1 !! l = Some s) by exact Hs.
  exists (effective_spec (this w1) s). eexists.
  rewrite (createStream_run rtc w1 l s Hs1). cbn [snd log with_heap heap calls].
  split; [reflexivity|]. split; [apply lookup_insert_eq|].
  rewrite effective_spec_microphoneId, effective_spec_cameraId.
  split; apply default_for_filter.
Qed.

(** ** What [createStream] leaves alone *)

(** X6: [createStream] writes no property other than microphoneId and
    cameraId: every other property of the object the SDK receives, which is
    the caller's object after the call, is as the caller set it. *)
Theorem createStream_touches_only_device_ids w l s :
  heap w !! l = Some s →
  ∃ s' r,
    calls (createStream rtc l w).2 = calls w ++ [Call_createStream l s' r] ∧
    heap (createStream rtc l w).2 !! l = Some s' ∧
    audio s' = audio s ∧ video s' = video s ∧ screen s' = screen s ∧
    screenAudio s' = screenAudio s ∧ mirror s' = mirror s ∧
    streamID s' = streamID s ∧ extensionId s' = extensionId s ∧
    facingMode s' = facingMode s ∧ mediaSource s' = mediaSource s ∧
    audioProcessing s' = audioProcessing s ∧
    audioSource s' = audioSource s ∧ videoSource s' = videoSource s.
Proof.
  intros Hs. exists (effective_spec (this w) s). eexists.
  rewrite (createStream_run rtc w l s Hs). cbn [snd log with_heap heap calls].
  split; [reflexivity|]. split; [apply lookup_insert_eq|].
  by repeat split.
Qed.

(** X7: [createStream] never assigns a field of the service, never
    registers a callback, and neither creates nor removes specification
    objects, whatever reference it is given. *)
Theorem createStream_leaves_service w l :
  let w' := (createStream rtc l w).2 in
  this w' = this w ∧ pending w' = pending w ∧ dom (heap w') = dom (heap w).
Proof.
  simpl. destruct (heap w !! l) as [s|] eqn:Hl.
  - rewrite (createStream_run rtc w l s Hl). cbn [snd log with_heap heap this pending].
    split; [done|]. split; [done|].
    apply dom_insert_lookup_L. by rewrite Hl.
  - by rewrite (createStream_missing rtc w l Hl).
Qed.

(** X8: an object [createStream] has filled is not written again while
    the caches stay the same.  If a specification object is as an earlier
    call of [createStream] left it and both device caches are as they were
    at that call, a further call on it leaves every specification object
    unchanged, whatever else happened to the service in between. *)
Theorem createStream_again_keeps_heap w w' l s :
  heap w !! l = Some s →
  heap w' !! l = heap (createStream rtc l w).2 !! l →
  audioDevices (this w') = audioDevices (this w) →
  videoDevices (this w') = videoDevices (this w) →
  heap (createStream rtc l w').2 = heap w'.
Proof.
  intros Hs Hl Ha Hv.
  rewrite (createStream_run rtc w l s Hs) in Hl. cbn [snd log with_heap heap] in Hl.
  rewrite lookup_insert_eq in Hl.
  rewrite (createStream_run rtc w' l _ Hl). cbn [snd log with_heap heap].
  rewrite (effective_spec_again (this w) (this w') s).
  - by apply insert_id.
  - by rewrite Ha, default_for_idem.
  - by rewrite Hv, default_for_idem.
Qed.

(** ** [createClient] when the SDK fails *)

(** X9: if the SDK throws from [createClient], the service's
    [createClient] throws the same value, does not call [init], and leaves
    every field of the service as it was: [this.client] is still the client
    created last, if any. *)
Theorem createClient_failure_keeps_client cfg0 acts cfg e :
  let w := run rtc acts (new_service rtc cfg0) in
  sdk_createClient rtc (calls w) cfg = inr e →
  (createClient rtc cfg w).1 = Throw (SdkThrow e) ∧
  calls (createClient rtc cfg w).2 = calls w ++ [Call_createClient cfg (inr e)] ∧
  this (createClient rtc cfg w).2 = this w ∧
  client (this (createClient rtc cfg w).2) = last_created (calls w).
Proof.
  intros w Hr. rewrite (createClient_failed rtc w cfg e Hr). cbn [fst snd log this calls].
  repeat split. subst w. apply reachable_client.
Qed.

(** X10: if the SDK creates the client but the client's [init] throws, the
    service's [createClient] throws the same value, and the new client is
    stored in [this.client] all the same. *)
Theorem createClient_init_failure cfg0 acts cfg c e :
  let w := run rtc acts (new_service rtc cfg0) in
  sdk_createClient rtc (calls w) cfg = inl c →
  sdk_client rtc (calls w ++ [Call_createClient cfg (inl c)]) c Client.init
    [JString (AppID cfg0)] = inr e →
  (createClient rtc cfg w).1 = Throw (SdkThrow e) ∧
  client (this (createClient rtc cfg w).2) = Some c.
Proof.
  intros w Hr Hinit. rewrite (createClient_created rtc w cfg c Hr).
  cbn [fst snd log with_this this calls client set_client].
  subst w. rewrite reachable_config, Hinit. done.
Qed.

(** X11: [createClient] never touches the device caches, the outstanding
    enumeration, the configuration or any specification object, whether it
    succeeds or throws. *)
Theorem createClient_leaves_devices w cfg :
  let w' := (createClient rtc cfg w).2 in
  audioDevices (this w') = audioDevices (this w) ∧
  videoDevices (this w') = videoDevices (this w) ∧
  config (this w') = config (this w) ∧
  pending w' = pending w ∧
  heap w' = heap w.
Proof.
  simpl. destruct (sdk_createClient rtc (calls w) cfg) as [c|e] eqn:Hr.
  - by rewrite (createClient_created rtc w cfg c Hr).
  - by rewrite (createClient_failed rtc w cfg e Hr).
Qed.

(** X12: until the SDK has created a client, an operation invoked through
    [this.client] throws a TypeError, reaches the SDK with nothing, and
    changes nothing. *)
Theorem client_before_createClient cfg0 acts m args :
  let w := run rtc acts (new_service rtc cfg0) in
  last_created (calls w) = None →
  this_client rtc m args w
  = (Throw (TypeError "Cannot read property of undefined"), w).
Proof.
  intros w Hnone. apply this_client_undefined.
  subst w. by rewrite reachable_client.
Qed.

(** ** The two caches together *)

Lemma filter_length_disjoint {A} (f g : A → bool) l :
  (∀ x, f x = true → g x = false) →
  length (List.filter f l) + length (List.filter g l) ≤ length l.
Proof.
  intros Hd. induction l as [|x xs IH]; simpl; [done|].
  destruct (f x) eqn:Hf.
  - rewrite (Hd x Hf). simpl. lia.
  - destruct (g x); simpl; lia.
Qed.

(** X13: after an answer, no device is in both caches, every cached device
    was enumerated and is not the 'default' alias, and the two caches
    together are no longer than the enumeration. *)
Theorem caches_disjoint_and_bounded w rest devices :
  pending w = collectDevices_callback :: rest →
  let w' := (deliver_devices devices w).2 in
  length (audio_cache w') + length (video_cache w') ≤ length devices ∧
  (∀ d, d ∈ audio_cache w' →
        d ∈ devices ∧ (d ∉ video_cache w') ∧ deviceId d ≠ "default") ∧
  (∀ d, d ∈ video_cache w' →
        d ∈ devices ∧ (d ∉ audio_cache w') ∧ deviceId d ≠ "default").
Proof.
  intros Hp w'. subst w'. rewrite (deliver_devices_run w rest devices Hp).
  unfold audio_cache, video_cache. cbn.
  split; [apply filter_length_disjoint, audio_not_video|].
  split; intros d Hd; apply list_elem_of_In, List.filter_In in Hd as [Hin Hf].
  - split; [by apply list_elem_of_In|]. split.
    + intros Hv. apply list_elem_of_In, List.filter_In in Hv as [_ Hv].
      by rewrite (audio_not_video d Hf) in Hv.
    + by apply is_audio_input_spec in Hf as [_ Hne].
  - split; [by apply list_elem_of_In|]. split.
    + intros Ha. apply list_elem_of_In, List.filter_In in Ha as [_ Ha].
      by rewrite (video_not_audio d Hf) in Ha.
    + by apply is_video_input_spec in Hf as [_ Hne].
Qed.

End Lifecycle_properties.

(** * The further properties on concrete services *)

Section Concrete_lifecycle.
Import Sample Failing.

(** The consumer creates a stream and a client before the SDK answers,
    and a stream and a client afterwards. *)
Lemma caches_hold_answer_witness :
  let w := run rtc [Do_createStream one; Do_createClient "again"]
             (exec rtc (Sdk_devices enumerated)
                (run rtc [Do_new_spec one spec_av; Do_createStream one;
                          Do_createClient "live"]
                   (new_service rtc cfg))) in
  audioDevices (this w) = Some [device "a" "audioinput"] ∧
  videoDevices (this w) = Some [device "b" "videoinput"].
Proof.
  exact (caches_hold_answer rtc cfg
           [Do_new_spec one spec_av; Do_createStream one; Do_createClient "live"]
           enumerated [Do_createStream one; Do_createClient "again"]
           eq_refl eq_refl eq_refl).
Defined.

Lemma enumeration_failure_is_final_witness :
  let w := run rtc [Sdk_devices enumerated; Do_createStream one]
             (exec rtc Sdk_devices_failed
                (run rtc [Do_new_spec one spec_av] (new_service rtc cfg))) in
  audioDevices (this w) = None ∧ videoDevices (this w) = None.
Proof.
  exact (enumeration_failure_is_final rtc cfg [Do_new_spec one spec_av]
           [Sdk_devices enumerated; Do_createStream one] eq_refl).
Defined.

Lemma createStream_before_answer_witness :
  let w := run rtc [Do_new_spec one spec_av] (new_service rtc cfg) in
  createStream rtc one w
  = (Normal 2, log (Call_createStream one spec_av (inl 2)) w).
Proof.
  exact (createStream_before_answer rtc cfg [Do_new_spec one spec_av] one spec_av
           eq_refl eq_refl).
Defined.

(** With [aliases_only] no microphone is selected, and the camera is the
    first of the two enumerated. *)
Lemma default_is_first_enumerated_witness :
  let w := run rtc [Do_new_spec one spec_av] (new_service rtc cfg) in
  ∃ s',
    heap (createStream rtc one (deliver_devices aliases_only w).2).2 !! one = Some s' ∧
    microphoneId s' = None ∧ cameraId s' = Some "c1".
Proof.
  destruct (default_is_first_enumerated rtc
              (run rtc [Do_new_spec one spec_av] (new_service rtc cfg))
              [] aliases_only one spec_av eq_refl eq_refl)
    as (s' & r & _ & Hheap & Hmic & Hcam).
  exists s'. split; [exact Hheap|]. split; [exact Hmic | exact Hcam].
Defined.

Lemma createStream_touches_only_device_ids_witness :
  ∃ s',
    heap (createStream rtc one (ready spec_av)).2 !! one = Some s' ∧
    audio s' = true ∧ video s' = true ∧ streamID s' = None.
Proof.
  destruct (createStream_touches_only_device_ids rtc (ready spec_av) one spec_av eq_refl)
    as (s' & r & _ & Hheap & Haudio & Hvideo & _ & _ & _ & Hid & _).
  exists s'. split; [exact Hheap|]. split; [exact Haudio|]. split; [exact Hvideo | exact Hid].
Defined.

(** A client is created and used between the two calls. *)
Lemma createStream_again_keeps_heap_witness :
  let w' := run rtc [Do_createClient "live"; Do_client Client.join [JString "token"]]
              (createStream rtc one (ready spec_av)).2 in
  heap (createStream rtc one w').2 = heap w'.
Proof.
  exact (createStream_again_keeps_heap rtc (ready spec_av)
           (run rtc [Do_createClient "live"; Do_client Client.join [JString "token"]]
              (createStream rtc one (ready spec_av)).2)
           one spec_av eq_refl eq_refl eq_refl eq_refl).
Defined.

Lemma createClient_failure_keeps_client_witness :
  (createClient rtc_no_client "live" (new_service rtc_no_client cfg)).1
  = Throw (SdkThrow "CLIENT_FAILED") ∧
  client (this (createClient rtc_no_client "live" (new_service rtc_no_client cfg)).2)
  = None.
Proof.
  destruct (createClient_failure_keeps_client rtc_no_client cfg [] "live"
              "CLIENT_FAILED" eq_refl) as (Hthrow & _ & _ & Hclient).
  split; [exact Hthrow | exact Hclient].
Defined.

Lemma createClient_init_failure_witness :
  (createClient rtc_init_throws "live" (new_service rtc_init_throws cfg)).1
  = Throw (SdkThrow "INVALID_OPERATION") ∧
  client (this (createClient rtc_init_throws "live" (new_service rtc_init_throws cfg)).2)
  = Some 2.
Proof.
  exact (createClient_init_failure rtc_init_throws cfg [] "live" 2
           "INVALID_OPERATION" eq_refl eq_refl).
Defined.

Lemma client_before_createClient_witness :
  let w := run rtc [Sdk_devices enumerated; Do_new_spec one spec_av; Do_createStream one]
             (new_service rtc cfg) in
  this_client rtc Client.join [JString "token"] w
  = (Throw (TypeError "Cannot read property of undefined"), w).
Proof.
  exact (client_before_createClient rtc cfg
           [Sdk_devices enumerated; Do_new_spec one spec_av; Do_createStream one]
           Client.join [JString "token"] eq_refl).
Defined.

Lemma caches_disjoint_and_bounded_witness :
  let w' := (deliver_devices enumerated (new_service rtc cfg)).2 in
  length (audio_cache w') + length (video_cache w') ≤ 3.
Proof.
  destruct (caches_disjoint_and_bounded (new_service rtc cfg) [] enumerated eq_refl)
    as (Hlen & _).
  exact Hlen.
Defined.

End Concrete_lifecycle.
